(** * The demo web service (src/app.js)

    The repository ships one program: an Express application with two
    routes, [/] and [/leak], and one module-level variable,
    [memoryLeakArray].  This development embeds that program and proves
    that the array only ever grows, by 100000 elements per request served
    by the [/leak] route.

    JavaScript runs each handler to completion before the next request is
    looked at, so an execution of the server is a sequence of requests
    folded over the module state.  The heap is taken as unbounded and
    the array as a list without the language's bound on its length
    (2^32 - 1 elements, more than 42949 full runs of the loop): the process
    being killed for lack of memory (the point of the demo) ends the
    server's lifetime and is not a step of the model.

    The shell scripts around the service are covered where they compute:
    the requests trigger-issue.sh sends, and the region, project and image
    name that setup-demo.sh, trigger-issue.sh and cleanup-demo.sh work
    with. *)

From Stdlib Require Import Ascii.
From stdpp Require Import base numbers list strings sorting.

Open Scope string_scope.
Open Scope list_scope.

(** ** JavaScript values used by the program *)

(** [for (let i = 0; i < n; i++) body]: the counter starts at 0, the body
    runs while it is below [n] and does not assign it. *)
Definition for_upto {A : Type} (n : N) (body : N -> A -> A) (a : A) : A :=
  snd (N.iter n (fun ia => (N.succ (fst ia), body (fst ia) (snd ia))) (0%N, a)).

(** [arr.push(x)]: the element goes to the end, nothing else moves. *)
Definition Array_push {A : Type} (arr : list A) (x : A) : list A :=
  arr ++ [x].

(** [new Array(n).fill(x)]. *)
Definition Array_fill {A : Type} (n : nat) (x : A) : list A :=
  replicate n x.

(** [arr.join(sep)]. *)
Definition Array_join (sep : string) (arr : list string) : string :=
  String.concat sep arr.

(** ** Module state and what a handler sees *)

(** The object literal pushed by the [/leak] handler. *)
Record Entry := mkEntry { data : string; timestamp : Z }.

(** [let memoryLeakArray = [];] is the only module-level state that the
    handlers touch. *)
Record State := mkState { memoryLeakArray : list Entry }.

Definition init : State := {| memoryLeakArray := [] |}.

(** What one handler run reads from the runtime: [new Date()] at loop
    iteration [i] (milliseconds since the epoch) and
    [process.memoryUsage().heapUsed] (bytes). *)
Record Runtime := mkRuntime { Date_now : N -> Z; heapUsed : Z }.

Record Request := mkRequest { method : string; url : string }.

(** The body handed to [res.send].  [MemoryUsage b] stands for the template
    literal [`Memory usage: ${b / 1024 / 1024} MB`]; the number is kept
    unrendered. *)
Inductive Body :=
| Text (s : string)
| MemoryUsage (heapUsedBytes : Z).

Inductive Response :=
| Send (body : Body)
| NotFound.

Definition Handler : Type := Runtime -> State -> State * Response.

(** ** The handlers *)

(** [app.get('/', ...)]. *)
Definition root_handler : Handler :=
  fun _ st => (st, Send (Text "Hello from Cloud Run!")).

Definition leak_entry (rt : Runtime) (i : N) : Entry :=
  {| data := Array_join "" (Array_fill 1000 "x");
     timestamp := Date_now rt i |}.

Definition leak_body (rt : Runtime) (i : N) (st : State) : State :=
  {| memoryLeakArray := Array_push (memoryLeakArray st) (leak_entry rt i) |}.

(** [app.get('/leak', ...)]. *)
Definition leak_handler : Handler :=
  fun rt st =>
    let st' := for_upto 100000 (leak_body rt) st in
    (st', Send (MemoryUsage (heapUsed rt))).

(** The elements that [n] iterations of the loop of [/leak] push, in
    order (used to state what the handler adds). *)
Definition leak_entries (rt : Runtime) (n : N) : list Entry :=
  for_upto n (fun i l => Array_push l (leak_entry rt i)) [].

(** The routes in the order [app.get] registers them. *)
Definition routes : list (string * Handler) :=
  [("/", root_handler); ("/leak", leak_handler)].

(** ** Dispatch

    Express is a dependency, not part of the repository: how it decides
    that a request matches a path registered with [app.get] (method, case,
    trailing slash, query string) is a parameter of the model.  What the
    program fixes is the order of the routes; a handler that answers
    without calling [next] stops the search, and a request no route matches
    gets Express's 404 without any handler of the program running. *)
Section Express.

Variable get_matches : string -> Request -> bool.

Definition dispatch (req : Request) : option (string * Handler) :=
  List.find (fun r => get_matches (fst r) req) routes.

Definition handle (req : Request) (rt : Runtime) (st : State)
  : State * Response :=
  match dispatch req with
  | Some r => snd r rt st
  | None => (st, NotFound)
  end.

(** The request is served by the [/leak] route. *)
Definition is_leak_request (req : Request) : bool :=
  match dispatch req with
  | Some r => bool_decide (fst r = "/leak")
  | None => false
  end.

(** The server's run over the requests it receives, each with the runtime
    readings of its handler: the state after the last one and the
    responses in order. *)
Fixpoint serve (evs : list (Request * Runtime)) (st : State)
  : State * list Response :=
  match evs with
  | [] => (st, [])
  | (req, rt) :: evs' =>
      let '(st1, resp) := handle req rt st in
      let '(st2, resps) := serve evs' st1 in
      (st2, resp :: resps)
  end.

Definition leak_requests (evs : list (Request * Runtime)) : nat :=
  length (List.filter (fun ev => is_leak_request (fst ev)) evs).

(** What serving one request adds to the array. *)
Definition added_by (ev : Request * Runtime) : list Entry :=
  if is_leak_request (fst ev)
  then leak_entries (snd ev) 100000
  else [].

End Express.

(** A matcher for running the model on [GET /] and [GET /leak]: method
    [GET] and the path as registered.  It is not Express's matcher, which
    also routes [HEAD], other letter case, a trailing slash and a query
    string to the same handlers; the theorems are stated for every matcher
    and use this one only in examples. *)
Definition exact_get (path : string) (req : Request) : bool :=
  bool_decide (method req = "GET") && bool_decide (url req = path).

(** ** Measures on the array *)

(** The characters held by the [data] strings of the array. *)
Definition total_chars (arr : list Entry) : N :=
  foldr (fun e acc => (N.of_nat (String.length (data e)) + acc)%N) 0%N arr.

(** [--memory 256Mi] of [gcloud run deploy] in setup-demo.sh, in bytes. *)
Definition memory_limit : N := (256 * 1024 * 1024)%N.

(** The array is in the order of its timestamps. *)
Definition by_timestamp (e1 e2 : Entry) : Prop :=
  (timestamp e1 <= timestamp e2)%Z.

(** The clock does not run backwards during the run: inside one handler
    run the readings of the 100000 iterations do not decrease, and no
    reading of a later request is below a reading of an earlier one. *)
Fixpoint chronological (evs : list (Request * Runtime)) : Prop :=
  match evs with
  | [] => True
  | ev :: evs' =>
      (forall i j : N, (i <= j)%N -> (j < 100000)%N ->
          (Date_now (snd ev) i <= Date_now (snd ev) j)%Z)
      /\ Forall (fun ev' =>
           forall i j : N, (i < 100000)%N -> (j < 100000)%N ->
             (Date_now (snd ev) i <= Date_now (snd ev') j)%Z) evs'
      /\ chronological evs'
  end.

(** ** trigger-issue.sh as a client of the service

    The requests the script sends to [$SERVICE_URL]: [curl -s $SERVICE_URL]
    first, then [curl -s $SERVICE_URL/leak &] for [i in {1..10}] followed
    by [wait], and after [sleep 5] another [curl] of [$SERVICE_URL]. *)
Definition root_request : Request := {| method := "GET"; url := "/" |}.

Definition leak_request : Request := {| method := "GET"; url := "/leak" |}.

Definition trigger_requests : list Request :=
  [root_request] ++ replicate 10 leak_request ++ [root_request].

(** ** The start of the shell scripts *)

(** ["$1"]: the scripts do not [set -u], a missing argument expands to the
    empty string. *)
Definition positional (arg : option string) : string :=
  default "" arg.

(** [${VAR:-word}]: [word] when [VAR] is unset or null. *)
Definition param_default (var : option string) (word : string) : string :=
  match var with
  | Some v => if bool_decide (v = "") then word else v
  | None => word
  end.

(** The region, the same lines in setup-demo.sh, trigger-issue.sh and
    cleanup-demo.sh:
    [if [ ! -z "$1" ]; then REGION=$1; else REGION=${REGION:-europe-west1}; fi]. *)
Definition resolve_region (arg1 env_REGION : option string) : string :=
  if negb (bool_decide (positional arg1 = ""))
  then positional arg1
  else param_default env_REGION "europe-west1".

(** [IMAGE_URL="$REGION-docker.pkg.dev/$PROJECT_ID/cloud-assist-demos/cloud-assist-demo"],
    in setup-demo.sh and in cleanup-demo.sh. *)
Definition image_url (region project : string) : string :=
  region +:+ "-docker.pkg.dev/" +:+ project
    +:+ "/cloud-assist-demos/cloud-assist-demo".

(** A script under [set -e] goes on with a value or exits with a status. *)
Inductive Outcome (A : Type) :=
| Continue (a : A)
| Exit (status : nat).
Arguments Continue {A} a.
Arguments Exit {A} status.

(** What [$(gcloud config get-value project)] yields: the output without
    its trailing newline and the exit status. *)
Record Command := mkCommand { stdout : string; exit_status : nat }.

(** [VAR=$(cmd)] under [set -e]: the assignment has the status of the
    command, a failure ends the script with it. *)
Definition assign_from (cmd : Command) : Outcome string :=
  if bool_decide (exit_status cmd = 0) then Continue (stdout cmd)
  else Exit (exit_status cmd).

(** setup-demo.sh:
    [if [ -z "$PROJECT_ID" ]; then PROJECT_ID=$(gcloud config get-value project);
       if [ -z "$PROJECT_ID" ]; then echo "Error: ..."; exit 1; fi; fi]. *)
Definition setup_project (env_PROJECT_ID : option string) (gcloud : Command)
  : Outcome string :=
  if bool_decide (positional env_PROJECT_ID = "") then
    match assign_from gcloud with
    | Continue p => if bool_decide (p = "") then Exit 1 else Continue p
    | Exit st => Exit st
    end
  else Continue (positional env_PROJECT_ID).

(** trigger-issue.sh and cleanup-demo.sh:
    [PROJECT_ID=${PROJECT_ID:-$(gcloud config get-value project)}]; the
    command runs only when the variable is unset or null. *)
Definition default_project (env_PROJECT_ID : option string) (gcloud : Command)
  : Outcome string :=
  match env_PROJECT_ID with
  | Some v => if bool_decide (v = "") then assign_from gcloud else Continue v
  | None => assign_from gcloud
  end.

(** ** The loop *)

Lemma for_upto_counter {A : Type} (n : N) (body : N -> A -> A) (a : A) :
  fst (N.iter n (fun ia => (N.succ (fst ia), body (fst ia) (snd ia))) (0%N, a)) = n.
Proof.
  induction n as [|n IH] using N.peano_ind.
  - reflexivity.
  - rewrite N.iter_succ. cbn [fst]. now rewrite IH.
Qed.

Lemma for_upto_0 {A : Type} (body : N -> A -> A) (a : A) :
  for_upto 0 body a = a.
Proof. reflexivity. Qed.

Lemma for_upto_succ {A : Type} (n : N) (body : N -> A -> A) (a : A) :
  for_upto (N.succ n) body a = body n (for_upto n body a).
Proof.
  unfold for_upto. rewrite N.iter_succ. cbn [snd].
  now rewrite for_upto_counter.
Qed.

Example for_upto_3 :
  for_upto 3 (fun i l => Array_push l i) [7%N] = [7; 0; 1; 2]%N.
Proof. reflexivity. Qed.

Example leak_entry_data (rt : Runtime) (i : N) :
  String.length (data (leak_entry rt i)) = 1000.
Proof. vm_compute. reflexivity. Qed.

Lemma leak_entries_succ (rt : Runtime) (n : N) :
  leak_entries rt (N.succ n) = leak_entries rt n ++ [leak_entry rt n].
Proof. unfold leak_entries. now rewrite for_upto_succ. Qed.

Lemma leak_entries_length (rt : Runtime) (n : N) :
  N.of_nat (length (leak_entries rt n)) = n.
Proof.
  induction n as [|n IH] using N.peano_ind.
  - reflexivity.
  - rewrite leak_entries_succ, length_app. cbn [length]. lia.
Qed.

Lemma leak_entries_lookup (rt : Runtime) (n i : N) :
  (i < n)%N -> leak_entries rt n !! N.to_nat i = Some (leak_entry rt i).
Proof.
  induction n as [|n IH] using N.peano_ind; intros Hi; [lia|].
  rewrite leak_entries_succ.
  destruct (decide (i = n)) as [->|Hne].
  - rewrite lookup_app_r by (pose proof (leak_entries_length rt n); lia).
    replace (N.to_nat n - length (leak_entries rt n)) with 0
      by (pose proof (leak_entries_length rt n); lia).
    reflexivity.
  - rewrite lookup_app_l by (pose proof (leak_entries_length rt n); lia).
    apply IH. lia.
Qed.

Lemma leak_loop (rt : Runtime) (n : N) (st : State) :
  memoryLeakArray (for_upto n (leak_body rt) st)
  = memoryLeakArray st ++ leak_entries rt n.
Proof.
  induction n as [|n IH] using N.peano_ind.
  - rewrite for_upto_0. unfold leak_entries. rewrite for_upto_0.
    now rewrite app_nil_r.
  - rewrite for_upto_succ, leak_entries_succ.
    unfold leak_body at 1. cbn [memoryLeakArray]. unfold Array_push.
    now rewrite IH, app_assoc.
Qed.

(** ** The handlers, one request at a time *)

Lemma root_handler_state (rt : Runtime) (st : State) :
  fst (root_handler rt st) = st.
Proof. reflexivity. Qed.

Lemma leak_handler_state (rt : Runtime) (st : State) :
  memoryLeakArray (fst (leak_handler rt st))
  = memoryLeakArray st ++ leak_entries rt 100000.
Proof. unfold leak_handler. cbn [fst]. apply leak_loop. Qed.

Section ExpressFacts.

Variable get_matches : string -> Request -> bool.

Lemma handle_state (req : Request) (rt : Runtime) (st : State) :
  memoryLeakArray (fst (handle get_matches req rt st))
  = memoryLeakArray st ++ added_by get_matches (req, rt).
Proof.
  unfold added_by, is_leak_request, handle, dispatch, routes.
  cbn [List.find fst snd].
  destruct (get_matches "/" req).
  - cbn [fst snd]. rewrite root_handler_state.
    rewrite bool_decide_eq_false_2 by discriminate.
    now rewrite app_nil_r.
  - destruct (get_matches "/leak" req).
    + cbn [fst snd]. rewrite bool_decide_eq_true_2 by reflexivity.
      apply leak_handler_state.
    + cbn [fst]. now rewrite app_nil_r.
Qed.

Lemma added_by_length (ev : Request * Runtime) :
  N.of_nat (length (added_by get_matches ev))
  = if is_leak_request get_matches (fst ev) then 100000%N else 0%N.
Proof.
  unfold added_by. destruct (is_leak_request get_matches (fst ev)).
  - apply leak_entries_length.
  - reflexivity.
Qed.

Lemma serve_state (evs : list (Request * Runtime)) (st : State) :
  memoryLeakArray (fst (serve get_matches evs st))
  = memoryLeakArray st ++ concat (map (added_by get_matches) evs).
Proof.
  revert st. induction evs as [|[req rt] evs IH]; intros st.
  - cbn. now rewrite app_nil_r.
  - cbn [serve map concat].
    pose proof (handle_state req rt st) as Hh.
    destruct (handle get_matches req rt st) as [st1 resp].
    specialize (IH st1).
    destruct (serve get_matches evs st1) as [st2 resps].
    cbn [fst] in *. rewrite IH, Hh. now rewrite app_assoc.
Qed.

Lemma added_length (evs : list (Request * Runtime)) :
  N.of_nat (length (concat (map (added_by get_matches) evs)))
  = (100000 * N.of_nat (leak_requests get_matches evs))%N.
Proof.
  unfold leak_requests.
  induction evs as [|ev evs IH].
  - reflexivity.
  - cbn [map concat List.filter]. rewrite length_app, Nat2N.inj_add, IH.
    rewrite added_by_length.
    destruct (is_leak_request get_matches (fst ev)); cbn [length]; lia.
Qed.

Lemma serve_responses (evs : list (Request * Runtime)) (st : State) :
  length (snd (serve get_matches evs st)) = length evs.
Proof.
  revert st. induction evs as [|[req rt] evs IH]; intros st; [reflexivity|].
  cbn [serve]. destruct (handle get_matches req rt st) as [st1 resp].
  specialize (IH st1). destruct (serve get_matches evs st1) as [st2 resps].
  cbn [snd length] in *. now rewrite IH.
Qed.

(** Runs of the server. *)

Lemma serve_app (evs1 evs2 : list (Request * Runtime)) (st : State) :
  fst (serve get_matches (evs1 ++ evs2) st)
  = fst (serve get_matches evs2 (fst (serve get_matches evs1 st))).
Proof.
  revert st. induction evs1 as [|[req rt] evs1 IH]; intros st; [reflexivity|].
  cbn [app serve]. destruct (handle get_matches req rt st) as [st1 resp].
  specialize (IH st1).
  destruct (serve get_matches (evs1 ++ evs2) st1) as [st2 resps].
  destruct (serve get_matches evs1 st1) as [st2' resps'].
  cbn [fst] in *. exact IH.
Qed.

Lemma serve_prefix (evs : list (Request * Runtime)) (st : State) :
  memoryLeakArray st `prefix_of` memoryLeakArray (fst (serve get_matches evs st)).
Proof. rewrite serve_state. apply prefix_app_r. reflexivity. Qed.

(** A route that matches the registered [/leak] and not [/] is the one
    [is_leak_request] recognises. *)
Lemma is_leak_request_matches (req : Request) :
  get_matches "/" req = false ->
  get_matches "/leak" req = true ->
  is_leak_request get_matches req = true.
Proof.
  intros H0 H1. unfold is_leak_request, dispatch, routes.
  cbn [List.find fst]. rewrite H0, H1. reflexivity.
Qed.

End ExpressFacts.

Example dispatch_get_leak :
  is_leak_request exact_get {| method := "GET"; url := "/leak" |} = true
  /\ is_leak_request exact_get {| method := "GET"; url := "/" |} = false
  /\ is_leak_request exact_get {| method := "POST"; url := "/leak" |} = false
  /\ is_leak_request exact_get {| method := "GET"; url := "/other" |} = false.
Proof. repeat split; reflexivity. Qed.

Example handle_root (rt : Runtime) (st : State) :
  handle exact_get {| method := "GET"; url := "/" |} rt st
  = (st, Send (Text "Hello from Cloud Run!")).
Proof. reflexivity. Qed.

Example handle_unrouted (rt : Runtime) (st : State) :
  handle exact_get {| method := "GET"; url := "/other" |} rt st
  = (st, NotFound).
Proof. reflexivity. Qed.

Example handle_leak_once (rt : Runtime) :
  N.of_nat (length (memoryLeakArray
    (fst (handle exact_get {| method := "GET"; url := "/leak" |} rt init))))
  = 100000%N.
Proof.
  rewrite handle_state. cbn [memoryLeakArray init app].
  rewrite added_by_length. reflexivity.
Qed.

Example leak_last_entry (rt : Runtime) :
  memoryLeakArray
    (fst (handle exact_get {| method := "GET"; url := "/leak" |} rt init))
    !! N.to_nat 99999
  = Some (leak_entry rt 99999).
Proof.
  rewrite handle_state. cbn [memoryLeakArray init app].
  unfold added_by. cbn [fst snd].
  replace (is_leak_request exact_get {| method := "GET"; url := "/leak" |})
    with true by reflexivity.
  apply leak_entries_lookup. reflexivity.
Qed.

(** ** The array only grows *)

Section LeakRequests.

Variable get_matches : string -> Request -> bool.

(** The route table decides which requests reach the loop: those Express
    matches against ['/leak'] and not against ['/'], registered first. *)
Lemma is_leak_request_spec (req : Request) :
  is_leak_request get_matches req
  = negb (get_matches "/" req) && get_matches "/leak" req.
Proof.
  unfold is_leak_request, dispatch, routes. cbn [List.find fst].
  destruct (get_matches "/" req); [reflexivity|].
  destruct (get_matches "/leak" req); reflexivity.
Qed.

Lemma leak_requests_all (evs : list (Request * Runtime)) :
  get_matches "/" leak_request = false ->
  get_matches "/leak" leak_request = true ->
  Forall (fun ev => fst ev = leak_request) evs ->
  leak_requests get_matches evs = length evs.
Proof.
  intros H0 H1 Hall. unfold leak_requests.
  induction Hall as [|ev evs Hev _ IH]; [reflexivity|].
  cbn [List.filter]. rewrite Hev.
  rewrite (is_leak_request_matches get_matches leak_request H0 H1).
  cbn [length]. now rewrite IH.
Qed.

End LeakRequests.

(** C10. The global [memoryLeakArray] is append-only.  Serving one request
    leaves the old elements in place and adds exactly 100000 elements when
    the request is served by the [/leak] route, none otherwise (the [/]
    handler and an unrouted request do not touch it).  Along any execution
    the array at an earlier point is a prefix of the array at a later
    point, so its length never decreases; and a server started with the
    empty array holds exactly 100000 * n elements after an execution in
    which n requests were served by [/leak], whatever other requests came
    in between.  The requests served by [/leak] are exactly those that
    Express matches against the path ['/leak'] and not against ['/'].  In
    particular, when Express routes [GET /leak] that way, each [GET /leak]
    request appends exactly 100000 elements to whatever the array holds,
    and after n [GET /leak] requests to a server started with the empty
    array it holds exactly 100000 * n elements. *)
Theorem memoryLeakArray_append_only (get_matches : string -> Request -> bool) :
  (forall (req : Request) (rt : Runtime) (st : State),
      exists added : list Entry,
        memoryLeakArray (fst (handle get_matches req rt st))
        = memoryLeakArray st ++ added
        /\ N.of_nat (length added)
           = if is_leak_request get_matches req then 100000%N else 0%N)
  /\ (forall (evs1 evs2 : list (Request * Runtime)),
         let earlier := memoryLeakArray (fst (serve get_matches evs1 init)) in
         let later :=
           memoryLeakArray (fst (serve get_matches (evs1 ++ evs2) init)) in
         earlier `prefix_of` later /\ length earlier <= length later)
  /\ (forall (evs : list (Request * Runtime)),
         N.of_nat (length (memoryLeakArray (fst (serve get_matches evs init))))
         = (100000 * N.of_nat (leak_requests get_matches evs))%N)
  /\ (forall (req : Request),
         is_leak_request get_matches req
         = negb (get_matches "/" req) && get_matches "/leak" req)
  /\ (get_matches "/" leak_request = false ->
      get_matches "/leak" leak_request = true ->
      (forall (rt : Runtime) (st : State),
          exists added : list Entry,
            memoryLeakArray (fst (handle get_matches leak_request rt st))
            = memoryLeakArray st ++ added
            /\ N.of_nat (length added) = 100000%N)
      /\ (forall (evs : list (Request * Runtime)),
             Forall (fun ev => fst ev = leak_request) evs ->
             N.of_nat
               (length (memoryLeakArray (fst (serve get_matches evs init))))
             = (100000 * N.of_nat (length evs))%N)).
Proof.
  split; [|split; [|split; [|split]]].
  - intros req rt st. exists (added_by get_matches (req, rt)). split.
    + apply handle_state.
    + apply (added_by_length get_matches (req, rt)).
  - intros evs1 evs2 earlier later. subst earlier later.
    rewrite serve_app.
    pose proof (serve_prefix get_matches evs2
                  (fst (serve get_matches evs1 init))) as Hp.
    split; [exact Hp|]. apply prefix_length, Hp.
  - intros evs. rewrite serve_state. cbn [memoryLeakArray init app].
    apply added_length.
  - apply is_leak_request_spec.
  - intros H0 H1. split.
    + intros rt st. exists (added_by get_matches (leak_request, rt)). split.
      * apply handle_state.
      * rewrite added_by_length. cbn [fst].
        now rewrite (is_leak_request_matches get_matches leak_request H0 H1).
    + intros evs Hall. rewrite serve_state. cbn [memoryLeakArray init app].
      rewrite added_length.
      now rewrite (leak_requests_all get_matches evs H0 H1 Hall).
Qed.

Lemma memoryLeakArray_append_only_witness :
  let rt := {| Date_now := fun i => Z.of_N i; heapUsed := 0 |} in
  let evs := [(leak_request, rt); (leak_request, rt); (leak_request, rt)] in
  exact_get "/" leak_request = false
  /\ exact_get "/leak" leak_request = true
  /\ Forall (fun ev => fst ev = leak_request) evs
  /\ (exists added : list Entry,
         memoryLeakArray (fst (handle exact_get leak_request rt init))
         = memoryLeakArray init ++ added
         /\ N.of_nat (length added) = 100000%N)
  /\ N.of_nat (length (memoryLeakArray (fst (serve exact_get evs init))))
     = (100000 * N.of_nat (length evs))%N.
Proof.
  intros rt evs.
  assert (H0 : exact_get "/" leak_request = false) by reflexivity.
  assert (H1 : exact_get "/leak" leak_request = true) by reflexivity.
  assert (Hall : Forall (fun ev => fst ev = leak_request) evs)
    by (repeat constructor).
  destruct (memoryLeakArray_append_only exact_get)
    as (_ & _ & _ & _ & Hget).
  destruct (Hget H0 H1) as (Hone & Hrun).
  repeat (split; [assumption|]).
  split; [exact (Hone rt init)|exact (Hrun evs Hall)].
Defined.

(** ** What the array holds *)

Lemma leak_entries_elem (rt : Runtime) (n : N) (e : Entry) :
  e ∈ leak_entries rt n -> exists i : N, (i < n)%N /\ e = leak_entry rt i.
Proof.
  induction n as [|n IH] using N.peano_ind.
  - unfold leak_entries. rewrite for_upto_0. intros He. inversion He.
  - rewrite leak_entries_succ, elem_of_app, list_elem_of_singleton.
    intros [He| ->].
    + destruct (IH He) as (i & Hi & ->). exists i. split; [lia|reflexivity].
    + exists n. split; [lia|reflexivity].
Qed.

Lemma leak_entry_chars (rt : Runtime) (i : N) :
  String.list_ascii_of_string (data (leak_entry rt i)) = replicate 1000 "x"%char.
Proof. vm_compute. reflexivity. Qed.

Lemma total_chars_app (l1 l2 : list Entry) :
  total_chars (l1 ++ l2) = (total_chars l1 + total_chars l2)%N.
Proof.
  induction l1 as [|e l1 IH]; [reflexivity|].
  cbn [app total_chars foldr]. fold (total_chars (l1 ++ l2)).
  fold (total_chars l1). rewrite IH. lia.
Qed.

Lemma leak_entries_chars (rt : Runtime) (n : N) :
  total_chars (leak_entries rt n) = (1000 * n)%N.
Proof.
  induction n as [|n IH] using N.peano_ind; [reflexivity|].
  rewrite leak_entries_succ, total_chars_app, IH.
  unfold total_chars at 1. cbn [foldr]. rewrite leak_entry_data. lia.
Qed.

Section Contents.

Variable get_matches : string -> Request -> bool.

Lemma added_by_elem (ev : Request * Runtime) (e : Entry) :
  e ∈ added_by get_matches ev ->
  exists i : N, (i < 100000)%N /\ e = leak_entry (snd ev) i.
Proof.
  unfold added_by. destruct (is_leak_request get_matches (fst ev)).
  - apply leak_entries_elem.
  - intros He. inversion He.
Qed.

Lemma added_elem (evs : list (Request * Runtime)) (e : Entry) :
  e ∈ concat (map (added_by get_matches) evs) ->
  exists (ev : Request * Runtime) (i : N),
    ev ∈ evs /\ (i < 100000)%N /\ e = leak_entry (snd ev) i.
Proof.
  induction evs as [|ev evs IH]; cbn [map concat].
  - intros He. inversion He.
  - rewrite elem_of_app. intros [He|He].
    + destruct (added_by_elem ev e He) as (i & Hi & ->).
      exists ev, i. split; [left|split; [exact Hi|reflexivity]].
    + destruct (IH He) as (ev' & i & Hin & Hi & ->).
      exists ev', i. split; [now right|split; [exact Hi|reflexivity]].
Qed.

Lemma added_chars (evs : list (Request * Runtime)) :
  total_chars (concat (map (added_by get_matches) evs))
  = (100000000 * N.of_nat (leak_requests get_matches evs))%N.
Proof.
  unfold leak_requests. induction evs as [|ev evs IH]; [reflexivity|].
  cbn [map concat List.filter]. rewrite total_chars_app, IH.
  unfold added_by. destruct (is_leak_request get_matches (fst ev)).
  - rewrite leak_entries_chars. cbn [length]. lia.
  - change (total_chars []) with 0%N. lia.
Qed.

Lemma leak_entries_sorted (rt : Runtime) (n : N) :
  (n <= 100000)%N ->
  (forall i j : N, (i <= j)%N -> (j < 100000)%N ->
      (Date_now rt i <= Date_now rt j)%Z) ->
  StronglySorted by_timestamp (leak_entries rt n).
Proof.
  intros Hn Hmono. induction n as [|n IH] using N.peano_ind.
  - unfold leak_entries. rewrite for_upto_0. constructor.
  - rewrite leak_entries_succ. apply StronglySorted_app. split; [|split].
    + intros x1 x2 H1 H2. apply list_elem_of_singleton in H2 as ->.
      destruct (leak_entries_elem rt n x1 H1) as (i & Hi & ->).
      unfold by_timestamp. cbn [timestamp leak_entry]. apply Hmono; lia.
    + apply IH. lia.
    + repeat constructor.
Qed.

Lemma added_sorted (evs : list (Request * Runtime)) :
  chronological evs ->
  StronglySorted by_timestamp (concat (map (added_by get_matches) evs)).
Proof.
  induction evs as [|ev evs IH]; cbn [map concat chronological].
  - constructor.
  - intros (Hin & Hafter & Hrest). apply StronglySorted_app.
    split; [|split].
    + intros x1 x2 H1 H2.
      destruct (added_by_elem ev x1 H1) as (i & Hi & ->).
      destruct (added_elem evs x2 H2) as (ev' & j & Hev' & Hj & ->).
      rewrite Forall_forall in Hafter.
      unfold by_timestamp. cbn [timestamp leak_entry].
      now apply (Hafter ev' Hev').
    + unfold added_by. destruct (is_leak_request get_matches (fst ev)).
      * apply leak_entries_sorted; [lia|exact Hin].
      * constructor.
    + apply IH, Hrest.
Qed.

End Contents.

(** X1. Every element the array holds, at any point of any run of the
    server started with the empty array, carries the same [data]: a string
    of exactly 1000 characters, all of them the letter x. *)
Theorem stored_data_is_1000_x
    (get_matches : string -> Request -> bool)
    (evs : list (Request * Runtime)) :
  Forall (fun e => String.list_ascii_of_string (data e) = replicate 1000 "x"%char)
         (memoryLeakArray (fst (serve get_matches evs init))).
Proof.
  apply Forall_forall. intros e He.
  rewrite serve_state in He. cbn [memoryLeakArray init app] in He.
  destruct (added_elem get_matches evs e He) as (ev & i & _ & _ & ->).
  apply leak_entry_chars.
Qed.

(** X2. After a run from the empty array the [data] strings of the array
    hold exactly 100000000 characters per request served by [/leak]; this
    count is above the 256Mi (268435456) of the deployment's memory setting
    exactly when at least three such requests were served. *)
Theorem stored_characters
    (get_matches : string -> Request -> bool)
    (evs : list (Request * Runtime)) :
  let arr := memoryLeakArray (fst (serve get_matches evs init)) in
  total_chars arr = (100000000 * N.of_nat (leak_requests get_matches evs))%N
  /\ ((memory_limit < total_chars arr)%N
      <-> 3 <= leak_requests get_matches evs).
Proof.
  intros arr. subst arr. rewrite serve_state.
  cbn [memoryLeakArray init app]. rewrite added_chars.
  split; [reflexivity|]. unfold memory_limit. lia.
Qed.

(** X3. When the clock does not run backwards during a run, the array is
    in chronological order after it: the timestamp of an element is never
    above the timestamp of an element behind it. *)
Theorem array_chronological
    (get_matches : string -> Request -> bool)
    (evs : list (Request * Runtime)) :
  chronological evs ->
  StronglySorted by_timestamp
    (memoryLeakArray (fst (serve get_matches evs init))).
Proof.
  intros Hc. rewrite serve_state. cbn [memoryLeakArray init app].
  now apply added_sorted.
Qed.

Lemma array_chronological_witness :
  let evs :=
    [(leak_request, {| Date_now := fun i => Z.of_N i; heapUsed := 0 |});
     (root_request, {| Date_now := fun _ => 100000%Z; heapUsed := 0 |});
     (leak_request,
      {| Date_now := fun i => (100000 + Z.of_N i)%Z; heapUsed := 0 |})] in
  chronological evs
  /\ StronglySorted by_timestamp
       (memoryLeakArray (fst (serve exact_get evs init))).
Proof.
  intros evs.
  assert (Hc : chronological evs).
  { subst evs. cbn [chronological snd Date_now].
    repeat split; try (intros; lia);
      repeat (constructor; cbn [snd Date_now]; try (intros; lia)). }
  split; [exact Hc|].
  apply (array_chronological exact_get evs Hc).
Defined.

(** ** Requests that are not served by [/leak] *)

Lemma concat_filter_blocks {A B : Type} (p : A -> bool) (blk : A -> list B)
    (l : list A) :
  concat (map (fun a => if p a then blk a else []) l)
  = concat (map blk (List.filter p l)).
Proof.
  induction l as [|a l IH]; [reflexivity|].
  cbn [map concat List.filter]. destruct (p a).
  - cbn [map concat]. now rewrite IH.
  - exact IH.
Qed.

Section Routing.

Variable get_matches : string -> Request -> bool.

Lemma serve_cons (ev : Request * Runtime) (evs : list (Request * Runtime))
    (st : State) :
  fst (serve get_matches (ev :: evs) st)
  = fst (serve get_matches evs (fst (handle get_matches (fst ev) (snd ev) st))).
Proof.
  destruct ev as [req rt]. cbn [serve fst snd].
  destruct (handle get_matches req rt st) as [st1 resp]. cbn [fst].
  destruct (serve get_matches evs st1) as [st2 resps]. reflexivity.
Qed.

Lemma handle_not_leak (req : Request) (rt : Runtime) (st : State) :
  is_leak_request get_matches req = false ->
  fst (handle get_matches req rt st) = st.
Proof.
  unfold is_leak_request, handle, dispatch, routes. cbn [List.find fst snd].
  destruct (get_matches "/" req); [reflexivity|].
  destruct (get_matches "/leak" req); [|reflexivity].
  cbn [fst]. rewrite bool_decide_eq_true_2 by reflexivity. discriminate.
Qed.

Lemma added_leak_only (evs : list (Request * Runtime)) :
  concat (map (added_by get_matches) evs)
  = concat (map (fun ev => leak_entries (snd ev) 100000)
              (List.filter (fun ev => is_leak_request get_matches (fst ev)) evs)).
Proof.
  exact (concat_filter_blocks
           (fun ev => is_leak_request get_matches (fst ev))
           (fun ev => leak_entries (snd ev) 100000) evs).
Qed.

Lemma leak_requests_fst (evs : list (Request * Runtime)) :
  leak_requests get_matches evs
  = length (List.filter (is_leak_request get_matches) (map fst evs)).
Proof.
  unfold leak_requests. induction evs as [|ev evs IH]; [reflexivity|].
  cbn [map List.filter]. destruct (is_leak_request get_matches (fst ev)).
  - cbn [length]. now rewrite IH.
  - exact IH.
Qed.

End Routing.

Lemma blocks_lookup (evs : list (Request * Runtime)) (a : nat)
    (ev : Request * Runtime) (i : N) :
  evs !! a = Some ev ->
  (i < 100000)%N ->
  concat (map (fun ev => leak_entries (snd ev) 100000) evs)
    !! N.to_nat (100000 * N.of_nat a + i)
  = Some (leak_entry (snd ev) i).
Proof.
  revert a. induction evs as [|ev0 evs IH]; intros a Ha Hi.
  - inversion Ha.
  - cbn [map concat].
    pose proof (leak_entries_length (snd ev0) 100000) as Hlen.
    destruct a as [|a].
    + injection Ha as ->.
      rewrite lookup_app_l by lia.
      replace (100000 * N.of_nat 0 + i)%N with i by lia.
      now apply leak_entries_lookup.
    + rewrite lookup_app_r by lia.
      replace (N.to_nat (100000 * N.of_nat (S a) + i)
               - length (leak_entries (snd ev0) 100000))
        with (N.to_nat (100000 * N.of_nat a + i)) by lia.
      apply IH; [exact Ha|exact Hi].
Qed.

(** X4. Requests that are not served by [/leak] (the greeting and the
    unrouted ones) are invisible in the state: a run ends in the same state
    as the run of its [/leak] requests alone, in the same order. *)
Theorem other_requests_invisible
    (get_matches : string -> Request -> bool)
    (evs : list (Request * Runtime)) (st : State) :
  fst (serve get_matches evs st)
  = fst (serve get_matches
           (List.filter (fun ev => is_leak_request get_matches (fst ev)) evs)
           st).
Proof.
  revert st. induction evs as [|ev evs IH]; intros st; [reflexivity|].
  cbn [List.filter].
  destruct (is_leak_request get_matches (fst ev)) eqn:Hleak.
  - rewrite !serve_cons. apply IH.
  - rewrite serve_cons, handle_not_leak by exact Hleak. apply IH.
Qed.

(** X5. After a run from the empty array, the element at index
    100000 * a + i (with i below 100000) is the one that iteration i of the
    loop pushed while request number a (counting from 0) among those served
    by [/leak] was handled: its timestamp is that iteration's clock
    reading. *)
Theorem array_lookup
    (get_matches : string -> Request -> bool)
    (evs : list (Request * Runtime)) (a : nat) (ev : Request * Runtime)
    (i : N) :
  List.filter (fun ev => is_leak_request get_matches (fst ev)) evs !! a
    = Some ev ->
  (i < 100000)%N ->
  memoryLeakArray (fst (serve get_matches evs init))
    !! N.to_nat (100000 * N.of_nat a + i)
  = Some {| data := Array_join "" (Array_fill 1000 "x");
            timestamp := Date_now (snd ev) i |}.
Proof.
  intros Ha Hi. rewrite serve_state. cbn [memoryLeakArray init app].
  rewrite added_leak_only. now apply blocks_lookup.
Qed.

Lemma array_lookup_witness :
  let rt k := {| Date_now := fun i => (k + Z.of_N i)%Z; heapUsed := 0 |} in
  let evs :=
    [(leak_request, rt 0%Z); (root_request, rt 5%Z); (leak_request, rt 7%Z)] in
  List.filter (fun ev => is_leak_request exact_get (fst ev)) evs !! 1
    = Some (leak_request, rt 7%Z)
  /\ (99999 < 100000)%N
  /\ memoryLeakArray (fst (serve exact_get evs init))
       !! N.to_nat (100000 * N.of_nat 1 + 99999)
     = Some {| data := Array_join "" (Array_fill 1000 "x");
               timestamp := Date_now (snd (leak_request, rt 7%Z)) 99999 |}.
Proof.
  intros rt evs.
  assert (H1 : List.filter (fun ev => is_leak_request exact_get (fst ev)) evs
               !! 1 = Some (leak_request, rt 7%Z)) by reflexivity.
  assert (H2 : (99999 < 100000)%N) by reflexivity.
  split; [exact H1|split; [exact H2|]].
  exact (array_lookup exact_get evs 1 (leak_request, rt 7%Z) 99999 H1 H2).
Defined.

(** ** One run of trigger-issue.sh *)

Section Trigger.

Variable get_matches : string -> Request -> bool.

Lemma handle_response_state (req : Request) (rt : Runtime) (st st' : State) :
  snd (handle get_matches req rt st) = snd (handle get_matches req rt st').
Proof.
  unfold handle, dispatch, routes. cbn [List.find fst snd].
  destruct (get_matches "/" req); [reflexivity|].
  destruct (get_matches "/leak" req); [|reflexivity].
  unfold leak_handler. cbn [snd]. reflexivity.
Qed.

Lemma serve_snd (evs : list (Request * Runtime)) (st : State) :
  snd (serve get_matches evs st)
  = map (fun ev => snd (handle get_matches (fst ev) (snd ev) init)) evs.
Proof.
  revert st. induction evs as [|[req rt] evs IH]; intros st; [reflexivity|].
  cbn [serve map fst snd].
  rewrite (handle_response_state req rt init st).
  destruct (handle get_matches req rt st) as [st1 resp].
  specialize (IH st1). destruct (serve get_matches evs st1) as [st2 resps].
  cbn [snd] in *. now rewrite IH.
Qed.

Hypothesis root_matched : get_matches "/" root_request = true.
Hypothesis leak_not_root : get_matches "/" leak_request = false.
Hypothesis leak_matched : get_matches "/leak" leak_request = true.

Lemma root_response (rt : Runtime) (st : State) :
  snd (handle get_matches root_request rt st)
  = Send (Text "Hello from Cloud Run!").
Proof.
  unfold handle, dispatch, routes. cbn [List.find fst snd].
  rewrite root_matched. reflexivity.
Qed.

Lemma leak_response (rt : Runtime) (st : State) :
  snd (handle get_matches leak_request rt st)
  = Send (MemoryUsage (heapUsed rt)).
Proof.
  unfold handle, dispatch, routes. cbn [List.find fst snd].
  rewrite leak_not_root, leak_matched.
  unfold leak_handler. cbn [snd]. reflexivity.
Qed.

Lemma root_not_leak : is_leak_request get_matches root_request = false.
Proof.
  unfold is_leak_request, dispatch, routes. cbn [List.find fst].
  rewrite root_matched. reflexivity.
Qed.

Lemma trigger_leaks :
  length (List.filter (is_leak_request get_matches) trigger_requests) = 10.
Proof.
  pose proof root_not_leak as Hr.
  pose proof (is_leak_request_matches get_matches leak_request
                leak_not_root leak_matched) as Hl.
  unfold trigger_requests. cbn [replicate app].
  repeat (cbn [List.filter]; first [rewrite Hr | rewrite Hl]).
  reflexivity.
Qed.

End Trigger.

(** X6. One run of trigger-issue.sh against one server process: when
    Express routes [GET /] to the greeting and [GET /leak] to the leak
    handler, the twelve requests of the script make the array exactly
    1000000 elements longer, whatever it held before; the first and the
    last request get the greeting and the ten in between get the memory
    report. *)
Theorem trigger_issue_run
    (get_matches : string -> Request -> bool)
    (evs : list (Request * Runtime)) (st : State) :
  get_matches "/" root_request = true ->
  get_matches "/" leak_request = false ->
  get_matches "/leak" leak_request = true ->
  map fst evs = trigger_requests ->
  N.of_nat (length (memoryLeakArray (fst (serve get_matches evs st))))
  = (N.of_nat (length (memoryLeakArray st)) + 1000000)%N
  /\ snd (serve get_matches evs st)
     = [Send (Text "Hello from Cloud Run!")]
       ++ map (fun ev => Send (MemoryUsage (heapUsed (snd ev))))
              (take 10 (drop 1 evs))
       ++ [Send (Text "Hello from Cloud Run!")].
Proof.
  intros Hroot Hnot Hleak Hreqs. split.
  - rewrite serve_state, length_app, Nat2N.inj_add, added_length.
    rewrite leak_requests_fst, Hreqs.
    rewrite (trigger_leaks get_matches Hroot Hnot Hleak). lia.
  - rewrite serve_snd.
    unfold trigger_requests in Hreqs. cbn [replicate app] in Hreqs.
    do 12 (destruct evs as [|[? ?] evs]; [discriminate Hreqs|]).
    destruct evs; [|discriminate Hreqs].
    cbn [map fst] in Hreqs. injection Hreqs as -> -> -> -> -> -> -> -> -> -> -> ->.
    cbn [map fst snd drop take app].
    rewrite !(root_response get_matches Hroot).
    rewrite !(leak_response get_matches Hnot Hleak).
    reflexivity.
Qed.

Lemma trigger_issue_run_witness :
  let rt := {| Date_now := fun i => Z.of_N i; heapUsed := 52428800 |} in
  let evs := map (fun req => (req, rt)) trigger_requests in
  exact_get "/" root_request = true
  /\ exact_get "/" leak_request = false
  /\ exact_get "/leak" leak_request = true
  /\ map fst evs = trigger_requests
  /\ N.of_nat (length (memoryLeakArray (fst (serve exact_get evs init))))
     = (N.of_nat (length (memoryLeakArray init)) + 1000000)%N
  /\ snd (serve exact_get evs init)
     = [Send (Text "Hello from Cloud Run!")]
       ++ map (fun ev => Send (MemoryUsage (heapUsed (snd ev))))
              (take 10 (drop 1 evs))
       ++ [Send (Text "Hello from Cloud Run!")].
Proof.
  intros rt evs.
  assert (H1 : exact_get "/" root_request = true) by reflexivity.
  assert (H2 : exact_get "/" leak_request = false) by reflexivity.
  assert (H3 : exact_get "/leak" leak_request = true) by reflexivity.
  assert (H4 : map fst evs = trigger_requests) by reflexivity.
  repeat (split; [assumption|]).
  exact (trigger_issue_run exact_get evs init H1 H2 H3 H4).
Defined.

(** ** The region and the project of the scripts *)

Lemma param_default_nonempty (var : option string) (word : string) :
  word <> "" -> param_default var word <> "".
Proof.
  intros Hw. unfold param_default. destruct var as [v|]; [|exact Hw].
  case_bool_decide; assumption.
Qed.

Lemma resolve_region_nonempty (arg1 env_REGION : option string) :
  resolve_region arg1 env_REGION <> "".
Proof.
  unfold resolve_region. case_bool_decide as Harg; cbn [negb].
  - now apply param_default_nonempty.
  - exact Harg.
Qed.

Lemma resolve_region_arg (r : string) (env_REGION : option string) :
  r <> "" -> resolve_region (Some r) env_REGION = r.
Proof.
  intros Hr. unfold resolve_region, positional. cbn [default].
  now rewrite bool_decide_eq_false_2.
Qed.

Lemma resolve_region_env (r : string) :
  r <> "" -> resolve_region None (Some r) = r.
Proof.
  intros Hr. unfold resolve_region, positional, param_default.
  cbn [default negb]. rewrite bool_decide_eq_true_2 by reflexivity.
  cbn [negb]. now rewrite bool_decide_eq_false_2.
Qed.

Example resolve_region_cases :
  resolve_region None None = "europe-west1"
  /\ resolve_region (Some "") (Some "") = "europe-west1"
  /\ resolve_region None (Some "us-central1") = "us-central1"
  /\ resolve_region (Some "europe-west2") (Some "us-central1") = "europe-west2".
Proof. repeat split; reflexivity. Qed.

Example image_url_demo :
  image_url "europe-west1" "demo-project"
  = "europe-west1-docker.pkg.dev/demo-project/cloud-assist-demos/cloud-assist-demo".
Proof. reflexivity. Qed.

Example project_cases :
  setup_project (Some "p") {| stdout := "q"; exit_status := 0 |} = Continue "p"
  /\ setup_project None {| stdout := "q"; exit_status := 0 |} = Continue "q"
  /\ setup_project None {| stdout := ""; exit_status := 0 |} = Exit 1
  /\ setup_project (Some "") {| stdout := ""; exit_status := 127 |} = Exit 127
  /\ default_project None {| stdout := ""; exit_status := 0 |} = Continue ""
  /\ default_project None {| stdout := ""; exit_status := 127 |} = Exit 127
  /\ default_project (Some "p") {| stdout := ""; exit_status := 127 |}
     = Continue "p".
Proof. repeat split; reflexivity. Qed.

(** X7. The region a script works with is never empty: whatever the
    argument and the [REGION] variable are (absent, empty or set), the
    resolved region has at least one character. *)
Theorem region_never_empty (arg1 env_REGION : option string) :
  0 < String.length (resolve_region arg1 env_REGION).
Proof.
  pose proof (resolve_region_nonempty arg1 env_REGION) as Hne.
  destruct (resolve_region arg1 env_REGION); [congruence|].
  cbn [String.length]. lia.
Qed.

(** X8. setup-demo.sh ends by telling the user to run
    [./cleanup-demo.sh $REGION], or plain [./cleanup-demo.sh] with [REGION]
    set to that value.  Either way cleanup resolves the region setup worked
    with, whatever else its own environment holds, and so names the image
    setup built for the same project. *)
Theorem cleanup_region_round_trip
    (arg1 env_REGION env_REGION' : option string) :
  let r := resolve_region arg1 env_REGION in
  resolve_region (Some r) env_REGION' = r
  /\ resolve_region None (Some r) = r
  /\ forall project : string,
       image_url (resolve_region (Some r) env_REGION') project
       = image_url r project
       /\ image_url (resolve_region None (Some r)) project
          = image_url r project.
Proof.
  intros r. subst r.
  pose proof (resolve_region_nonempty arg1 env_REGION) as Hne.
  rewrite (resolve_region_arg _ env_REGION' Hne).
  rewrite (resolve_region_env _ Hne).
  repeat split.
Qed.

(** X9. setup-demo.sh never goes on with an empty project: when it gets
    past its project check, [PROJECT_ID] is not empty, and trigger-issue.sh
    and cleanup-demo.sh started in the same environment go on with the same
    project. *)
Theorem setup_project_agrees
    (env_PROJECT_ID : option string) (gcloud : Command) (p : string) :
  setup_project env_PROJECT_ID gcloud = Continue p ->
  p <> "" /\ default_project env_PROJECT_ID gcloud = Continue p.
Proof.
  unfold setup_project, default_project, positional, assign_from.
  destruct env_PROJECT_ID as [v|]; simpl;
    repeat case_bool_decide; intros ?; simplify_eq; done.
Qed.

Lemma setup_project_agrees_witness :
  let gcloud := {| stdout := "demo-project"; exit_status := 0 |} in
  setup_project (Some "") gcloud = Continue "demo-project"
  /\ "demo-project" <> ""
  /\ default_project (Some "") gcloud = Continue "demo-project".
Proof.
  intros gcloud.
  assert (H : setup_project (Some "") gcloud = Continue "demo-project")
    by reflexivity.
  split; [exact H|].
  exact (setup_project_agrees (Some "") gcloud "demo-project" H).
Defined.

(** X10. The scripts differ when no project is configured: whenever
    trigger-issue.sh or cleanup-demo.sh goes on with an empty [PROJECT_ID]
    (the variable unset or empty and [gcloud] printing nothing),
    setup-demo.sh in the same environment stops with exit status 1. *)
Theorem empty_project_stops_setup
    (env_PROJECT_ID : option string) (gcloud : Command) :
  default_project env_PROJECT_ID gcloud = Continue "" ->
  setup_project env_PROJECT_ID gcloud = Exit 1.
Proof.
  unfold setup_project, default_project, positional, assign_from.
  destruct env_PROJECT_ID as [v|]; simpl;
    repeat case_bool_decide; intros ?; simplify_eq; done.
Qed.

Lemma empty_project_stops_setup_witness :
  let gcloud := {| stdout := ""; exit_status := 0 |} in
  default_project None gcloud = Continue ""
  /\ setup_project None gcloud = Exit 1.
Proof.
  intros gcloud.
  assert (H : default_project None gcloud = Continue "") by reflexivity.
  split; [exact H|].
  exact (empty_project_stops_setup None gcloud H).
Defined.
